(** * The routing harness of the memory-leak demo application

    Embedding of [src/app/app-routing.module.ts] (the route table and
    [AppRoutingModule]) and of the application module ([AppModule]).
    Object literals are kept as property maps, exactly the properties the
    source writes; decorator metadata as records of lists. The router and
    its outlet belong to the framework: resolution is the lookup of the
    requested path in the table, navigation the swap of the activated
    component. The second part embeds the two [createRenderer] methods the
    README quotes, over a heap of objects and the two caches. *)

From Stdlib Require Import Ascii String.
From stdpp Require Import base option list strings gmap.

Open Scope string_scope.

(** ** Identifiers bound by the import statements *)

(** The component classes imported by the two modules. *)
Inductive Component : Type :=
  | AppComponent
  | ChildElementComponent
  | PageOneComponent
  | PageTwoComponent
  | PageThreeComponent.

#[global] Instance Component_eq_dec : EqDecision Component.
Proof. solve_decision. Defined.

(** The module classes the two decorators mention. *)
Inductive NgModuleClass : Type :=
  | BrowserModule
  | BrowserAnimationsModule
  | FormsModule
  | RouterModule
  | AppRoutingModule
  | AppModule.

#[global] Instance NgModuleClass_eq_dec : EqDecision NgModuleClass.
Proof. solve_decision. Defined.

(** The module specifier each module class is imported from, lines 2 and
    36-41 (the classes defined by the two files themselves are named by
    their own file). *)
Definition import_from (m : NgModuleClass) : string :=
  match m with
  | BrowserModule => "@angular/platform-browser"
  | BrowserAnimationsModule => "@angular/platform-browser/animations"
  | FormsModule => "@angular/forms"
  | RouterModule => "@angular/router"
  | AppRoutingModule => "./app-routing.module"
  | AppModule => "./app.module"
  end.

(** ** Object literals *)

(** The values a property of a route literal holds in this program. *)
Inductive Value : Type :=
  | VString (s : string)
  | VComponent (c : Component).

#[global] Instance Value_eq_dec : EqDecision Value.
Proof. solve_decision. Defined.

(** A route is a JS object: a finite map from property names to values. *)
Abbreviation Route := (gmap string Value).
Abbreviation Routes := (list (gmap string Value)).

(** [const appRoutes: Routes = [ ... ]], app-routing.module.ts lines 7-20. *)
Definition appRoutes : Routes :=
  [ {[ "path" := VString "page-one";   "component" := VComponent PageOneComponent ]};
    {[ "path" := VString "page-two";   "component" := VComponent PageTwoComponent ]};
    {[ "path" := VString "page-three"; "component" := VComponent PageThreeComponent ]} ].

(** Property reads [r.path] and [r.component]; [None] is [undefined]. *)
Definition path (r : Route) : option string :=
  match r !! "path" with
  | Some (VString s) => Some s
  | _ => None
  end.

Definition component (r : Route) : option Component :=
  match r !! "component" with
  | Some (VComponent c) => Some c
  | _ => None
  end.

(** The entry seen as the pair the router consumes. *)
Definition route_pair (r : Route) : option (string * Component) :=
  p ← path r; c ← component r; Some (p, c).

(** The paths and the components the table mentions, in table order. *)
Definition defined_paths (config : Routes) : list string := omap path config.
Definition routed_components (config : Routes) : list Component := omap component config.

(** ** Path syntax *)




(** ** Route resolution *)

(** An entry answers a request when its [path] is the requested string. *)
Definition matches (url : string) (r : Route) : bool :=
  bool_decide (path r = Some url).

(** The first entry, in table order, that answers the request gives the
    component to display; no entry, no component. *)
Definition resolve (config : Routes) (url : string) : option Component :=
  r ← find (matches url) config; component r.

(** ** Module metadata *)

(** An element of an [imports] array: a module class, or the call
    [RouterModule.forRoot(routes)]. *)
Inductive ImportItem : Type :=
  | ImportClass (m : NgModuleClass)
  | ImportForRoot (routes : Routes).

(** The argument object of [@NgModule]; a property the literal leaves out
    is the empty array. *)
Record NgModule : Type := mkNgModule {
  declarations : list Component;
  imports : list ImportItem;
  exports : list NgModuleClass;
  providers : list string;
  bootstrap : list Component
}.

(** The decorator of [AppRoutingModule], app-routing.module.ts lines 22-31. *)
Definition AppRoutingModule_meta : NgModule :=
  {| declarations := [];
     imports := [ImportForRoot appRoutes];
     exports := [RouterModule];
     providers := [];
     bootstrap := [] |}.

(** The decorator of [AppModule], lines 46-62 of the same source file. *)
Definition AppModule_meta : NgModule :=
  {| declarations :=
       [AppComponent; ChildElementComponent; PageOneComponent;
        PageTwoComponent; PageThreeComponent];
     imports :=
       [ImportClass BrowserModule; ImportClass BrowserAnimationsModule;
        ImportClass FormsModule; ImportClass AppRoutingModule];
     exports := [];
     providers := [];
     bootstrap := [AppComponent] |}.

(** Metadata of the module classes this repository defines; the framework's
    classes are opaque here. *)
Definition metadata (m : NgModuleClass) : option NgModule :=
  match m with
  | AppRoutingModule => Some AppRoutingModule_meta
  | AppModule => Some AppModule_meta
  | _ => None
  end.

(** A module class that comes from an [@angular/...] package. *)
Definition is_framework (m : NgModuleClass) : bool :=
  String.prefix "@angular/" (import_from m).

(** The module class an import item stands for; [forRoot] returns
    [RouterModule] together with its providers. *)
Definition import_class (i : ImportItem) : NgModuleClass :=
  match i with
  | ImportClass m => m
  | ImportForRoot _ => RouterModule
  end.

(** The module classes written in the [imports] array of [m]. *)
Definition direct_imports (m : NgModuleClass) : list NgModuleClass :=
  from_option (λ md, import_class <$> imports md) [] (metadata m).

(** What importing [m] brings into scope: [m] itself and, through the
    modules of this repository, whatever they re-export. *)
Fixpoint brought_by (fuel : nat) (m : NgModuleClass) : list NgModuleClass :=
  m :: match fuel with
       | O => []
       | S fuel' =>
           from_option (λ md, mbind (brought_by fuel') (exports md)) [] (metadata m)
       end.

(** The module classes in scope of [m]; the fuel bounds the depth of
    re-export chains (there are six module classes). *)
Definition in_scope (m : NgModuleClass) : list NgModuleClass :=
  mbind (brought_by 6) (direct_imports m).

Definition active_framework_modules (m : NgModuleClass) : list NgModuleClass :=
  filter (λ x, is_framework x = true) (in_scope m).

(** The framework modules the description of the root shell names as the
    active ones: routing, forms and animations. *)
Definition named_framework_modules : list NgModuleClass :=
  [RouterModule; FormsModule; BrowserAnimationsModule].

(** The route tables handed to [RouterModule.forRoot] in the import graph
    below [m]. *)
Fixpoint forRoot_tables (fuel : nat) (m : NgModuleClass) : list Routes :=
  match fuel with
  | O => []
  | S fuel' =>
      from_option
        (λ md, mbind (λ i, match i with
                           | ImportForRoot routes => [routes]
                           | ImportClass m' => forRoot_tables fuel' m'
                           end) (imports md))
        [] (metadata m)
  end.

(** The configuration the router starts with when [AppModule] is
    bootstrapped. *)
Definition router_config : Routes := mjoin (forRoot_tables 6 AppModule).

(** ** Navigation *)

(** The router's state: its configuration, the component the outlet has
    activated, and the page roots attached to the live tree. *)
Record RouterState : Type := mkRouterState {
  config : Routes;
  activated : option Component;
  live : list Component
}.

(** The state once the application module is bootstrapped. *)
Definition boot : RouterState :=
  {| config := router_config; activated := None; live := [] |}.

(** The outlet detaches the root of the page it shows. *)
Definition deactivate (st : RouterState) : RouterState :=
  match activated st with
  | None => st
  | Some c =>
      {| config := config st;
         activated := None;
         live := filter (λ x, x ≠ c) (live st) |}
  end.

(** The outlet instantiates [c] and attaches its root. *)
Definition activateWith (c : Component) (st : RouterState) : RouterState :=
  {| config := config st; activated := Some c; live := live st ++ [c] |}.

(** One navigation request: the resolved component replaces the shown one;
    a request no entry answers activates nothing. *)
Definition navigate (url : string) (st : RouterState) : RouterState :=
  match resolve (config st) url with
  | Some c => activateWith c (deactivate st)
  | None => st
  end.

(** A sequence of requests, oldest first. *)
Definition navigations (urls : list string) (st : RouterState) : RouterState :=
  foldl (λ s url, navigate url s) st urls.

(** The outlet is in step with the live tree: the page roots attached are
    exactly the root of the activated component, if any. *)
Definition outlet_shows (st : RouterState) : Prop :=
  live st = option_list (activated st).


(** ** Page components *)

(** Modelled from the spec: the two kinds of child element a page template
    includes, one rendered inside a shadow root and one without
    encapsulation. *)
Inductive ChildVariant : Type :=
  | ShadowChild
  | PlainChild.

#[global] Instance ChildVariant_eq_dec : EqDecision ChildVariant.
Proof. solve_decision. Defined.

(** Modelled from the spec: a child element instance mounted by a page. *)
Record ElementInstance : Type := mkElementInstance {
  variant : ChildVariant;
  host : Component
}.

(** What a page instance holds while it is mounted: its children. *)
Abbreviation PageState := (list ElementInstance).

(** Modelled from the spec: the declaration of a component class, that is
    its inputs and outputs, the handlers that may change the state of an
    instance, and the child elements of its template. *)
Record ComponentClass : Type := mkComponentClass {
  inputs : list string;
  outputs : list string;
  handlers : list (string * (PageState → PageState));
  template : list ChildVariant
}.

(** Modelled from the spec: the page component files
    ([page-one/page-one.component.ts], [page-two/page-two.component.ts],
    [page-three/page-three.component.ts]) and
    [child-element/child-element.component.ts] are imported by both modules
    but are not among the sources. The spec gives every page no inputs, no
    outputs and no state transitions, and one child element in its template:
    shadow-encapsulated on Page One and on Page Two, not encapsulated on
    Page Three. *)
Definition page_class (c : Component) : option ComponentClass :=
  match c with
  | PageOneComponent =>
      Some {| inputs := []; outputs := []; handlers := []; template := [ShadowChild] |}
  | PageTwoComponent =>
      Some {| inputs := []; outputs := []; handlers := []; template := [ShadowChild] |}
  | PageThreeComponent =>
      Some {| inputs := []; outputs := []; handlers := []; template := [PlainChild] |}
  | AppComponent | ChildElementComponent => None
  end.

(** Modelled from the spec: rendering a page instantiates the child elements
    of its template. *)
Definition mount (c : Component) : PageState :=
  from_option (λ cls, (λ v, {| variant := v; host := c |}) <$> template cls) []
              (page_class c).

Definition shadow_children (c : Component) : PageState :=
  filter (λ i, variant i = ShadowChild) (mount c).

(** Modelled from the spec: an event reaches the handler registered under
    its name, when there is one; otherwise the instance stays as it is. *)
Fixpoint handler_for (ev : string) (hs : list (string * (PageState → PageState)))
    : option (PageState → PageState) :=
  match hs with
  | [] => None
  | (name, h) :: hs' => if decide (name = ev) then Some h else handler_for ev hs'
  end.

Definition dispatch (cls : ComponentClass) (ev : string) (st : PageState) : PageState :=
  match handler_for ev (handlers cls) with
  | Some h => h st
  | None => st
  end.

(** * The renderer factories

    The two [createRenderer] methods the README quotes: the one of the
    animation renderer factory, which caches base renderers by delegate, and
    the one of its delegate, which builds the renderer by the encapsulation
    of the component. Objects live in a heap and are named by their index
    there, so that [new] yields an identity no earlier object has. *)

(** ** Data *)

Abbreviation Element := nat.
Abbreviation RendererRef := nat.

(** The values of [type.encapsulation] the [switch] tells apart: the two
    enum members it names, the number [1], and anything else. *)
Inductive ViewEncapsulation : Type :=
  | Emulated
  | EncapsulationOne
  | ShadowDom
  | EncapsulationOther.

#[global] Instance ViewEncapsulation_eq_dec : EqDecision ViewEncapsulation.
Proof. solve_decision. Defined.

(** A value stored in [type.data], with its truthiness. *)
Inductive DataValue : Type :=
  | DUndefined
  | DBool (b : bool)
  | DString (s : string)
  | DArray (items : list string).

Definition truthy (v : DataValue) : bool :=
  match v with
  | DUndefined => false
  | DBool b => b
  | DString s => negb (bool_decide (s = ""))
  | DArray _ => true
  end.

(** [RendererType2]: the fields the two methods read; [type_id] is
    [type.id]. *)
Record RendererType2 : Type := mkRendererType2 {
  type_id : string;
  encapsulation : ViewEncapsulation;
  styles : list string;
  data : option (gmap string DataValue)
}.

(** The objects the two methods build, with the arguments that vary from
    call to call (the event manager, the styles host and the engine are
    fields of the factories, the same at every call). *)
Inductive Object : Type :=
  | DefaultDomRenderer2
  | EmulatedEncapsulationDomRenderer2 (ty : RendererType2) (appId : string)
  | ShadowDomRenderer (element : Element) (ty : RendererType2)
  | BaseAnimationRenderer (namespaceId : string) (delegate : RendererRef).

(** What the two methods read and write. *)
Record World : Type := mkWorld {
  heap : list Object;
  rendererByCompId : gmap string RendererRef;
  hostsApplied : list (RendererRef * Element);
  stylesAdded : list (list string);
  hasLoggedNativeEncapsulationWarning : bool;
  console : list string;
  rendererCache : gmap RendererRef RendererRef
}.

(** ** A state monad over the world *)

Definition St (A : Type) : Type := World → A * World.

#[global] Instance St_ret : MRet St := λ A a w, (a, w).
#[global] Instance St_bind : MBind St := λ A B f m w, f (m w).1 (m w).2.

Definition reads {A : Type} (f : World → A) : St A := λ w, (f w, w).
Definition modify (f : World → World) : St unit := λ w, (tt, f w).

(** [new C(...)]: the object goes to the end of the heap, its index is its
    identity. *)
Definition new (o : Object) : St RendererRef := λ w,
  (length (heap w),
   {| heap := heap w ++ [o];
      rendererByCompId := rendererByCompId w;
      hostsApplied := hostsApplied w;
      stylesAdded := stylesAdded w;
      hasLoggedNativeEncapsulationWarning := hasLoggedNativeEncapsulationWarning w;
      console := console w;
      rendererCache := rendererCache w |}).

(** [this.rendererByCompId.set(id, renderer)] *)
Definition rendererByCompId_set (id : string) (renderer : RendererRef) : St unit :=
  modify (λ w,
    {| heap := heap w;
       rendererByCompId := <[id := renderer]> (rendererByCompId w);
       hostsApplied := hostsApplied w;
       stylesAdded := stylesAdded w;
       hasLoggedNativeEncapsulationWarning := hasLoggedNativeEncapsulationWarning w;
       console := console w;
       rendererCache := rendererCache w |}).

(** [renderer.applyToHost(element)]: the body is not quoted; the call is
    recorded. *)
Definition applyToHost (renderer : RendererRef) (element : Element) : St unit :=
  modify (λ w,
    {| heap := heap w;
       rendererByCompId := rendererByCompId w;
       hostsApplied := hostsApplied w ++ [(renderer, element)];
       stylesAdded := stylesAdded w;
       hasLoggedNativeEncapsulationWarning := hasLoggedNativeEncapsulationWarning w;
       console := console w;
       rendererCache := rendererCache w |}).

(** [this.sharedStylesHost.addStyles(styles)]: the body is not quoted; the
    call is recorded. *)
Definition addStyles (added : list string) : St unit :=
  modify (λ w,
    {| heap := heap w;
       rendererByCompId := rendererByCompId w;
       hostsApplied := hostsApplied w;
       stylesAdded := stylesAdded w ++ [added];
       hasLoggedNativeEncapsulationWarning := hasLoggedNativeEncapsulationWarning w;
       console := console w;
       rendererCache := rendererCache w |}).

(** [hasLoggedNativeEncapsulationWarning = true; console.warn(message)] *)
Definition warn_once (message : string) : St unit :=
  modify (λ w,
    {| heap := heap w;
       rendererByCompId := rendererByCompId w;
       hostsApplied := hostsApplied w;
       stylesAdded := stylesAdded w;
       hasLoggedNativeEncapsulationWarning := true;
       console := console w ++ [message];
       rendererCache := rendererCache w |}).

(** [this._rendererCache.set(delegate, renderer)] *)
Definition rendererCache_set (delegate renderer : RendererRef) : St unit :=
  modify (λ w,
    {| heap := heap w;
       rendererByCompId := rendererByCompId w;
       hostsApplied := hostsApplied w;
       stylesAdded := stylesAdded w;
       hasLoggedNativeEncapsulationWarning := hasLoggedNativeEncapsulationWarning w;
       console := console w;
       rendererCache := <[delegate := renderer]> (rendererCache w) |}).

(** What the methods only read, and what they call without showing it: the
    fields [defaultRenderer] and [appId], the global [ngDevMode] ([None]
    when it is not defined), the function [flattenStyles], and the branch
    the README leaves out under "else custom renderer". *)
Record Env : Type := mkEnv {
  defaultRenderer : RendererRef;
  appId : string;
  ngDevMode : option bool;
  flattenStyles : string → list string → list string → list string;
  customRenderer : option Element → option RendererType2 → RendererRef → St RendererRef
}.

Definition native_warning : string :=
  "ViewEncapsulation.Native is no longer supported. Falling back to ViewEncapsulation.ShadowDom. The fallback will be removed in v12.".

(** [typeof ngDevMode === 'undefined' || ngDevMode] *)
Definition dev_mode (env : Env) : bool := default true (ngDevMode env).

(** ** The delegate's [createRenderer] (README lines 64-102) *)

Definition delegate_createRenderer (env : Env)
    (element : option Element) (type : option RendererType2) : St RendererRef :=
  match element, type with
  | Some element, Some type =>
      match encapsulation type with
      | Emulated =>
          cached ← reads (λ w, rendererByCompId w !! type_id type);
          renderer ← match cached with
                     | Some renderer => mret renderer
                     | None =>
                         renderer ← new (EmulatedEncapsulationDomRenderer2 type (appId env));
                         _ ← rendererByCompId_set (type_id type) renderer;
                         mret renderer
                     end;
          _ ← applyToHost renderer element;
          mret renderer
      | EncapsulationOne | ShadowDom =>
          logged ← reads hasLoggedNativeEncapsulationWarning;
          _ ← (if dev_mode env && negb logged
                  && bool_decide (encapsulation type = EncapsulationOne)
               then warn_once native_warning
               else mret tt);
          new (ShadowDomRenderer element type)
      | EncapsulationOther =>
          known ← reads (λ w, bool_decide (is_Some (rendererByCompId w !! type_id type)));
          _ ← (if negb known
               then _ ← addStyles (flattenStyles env (type_id type) (styles type) []);
                    rendererByCompId_set (type_id type) (defaultRenderer env)
               else mret tt);
          mret (defaultRenderer env)
      end
  | _, _ => mret (defaultRenderer env)
  end.

(** ** The animation factory's [createRenderer] (README lines 23-37) *)

Definition EMPTY_NAMESPACE_ID : string := "".

(** [!hostElement || !type || !type.data || !type.data['animation']] *)
Definition base_renderer_used
    (hostElement : option Element) (type : option RendererType2) : bool :=
  match hostElement, type with
  | Some _, Some type =>
      match data type with
      | Some d => negb (truthy (default DUndefined (d !! "animation")))
      | None => true
      end
  | _, _ => true
  end.

Definition createRenderer (env : Env)
    (hostElement : option Element) (type : option RendererType2) : St RendererRef :=
  delegate ← delegate_createRenderer env hostElement type;
  if base_renderer_used hostElement type then
    cached ← reads (λ w, rendererCache w !! delegate);
    match cached with
    | Some renderer => mret renderer
    | None =>
        renderer ← new (BaseAnimationRenderer EMPTY_NAMESPACE_ID delegate);
        _ ← rendererCache_set delegate renderer;
        mret renderer
    end
  else customRenderer env hostElement type delegate.

(** ** Sequences of calls *)

Abbreviation Call := (option Element * option RendererType2)%type.

(** The worlds after a sequence of calls, oldest first. *)
Definition delegate_calls (env : Env) (calls : list Call) (w : World) : World :=
  foldl (λ w c, (delegate_createRenderer env c.1 c.2 w).2) w calls.

Definition factory_calls (env : Env) (calls : list Call) (w : World) : World :=
  foldl (λ w c, (createRenderer env c.1 c.2 w).2) w calls.

(** A call that takes the base renderer path. *)
Definition on_base_path (c : Call) : Prop := base_renderer_used c.1 c.2 = true.

(** A call for a component rendered in a shadow root. *)
Definition shadow_call (c : Call) : Prop :=
  ∃ element type, c = (Some element, Some type)
    ∧ (encapsulation type = ShadowDom ∨ encapsulation type = EncapsulationOne).

(** Every reference the world holds names an object of the heap. *)
Definition refs_in_heap (env : Env) (w : World) : Prop :=
  defaultRenderer env < length (heap w)
  ∧ map_Forall (λ _ r, r < length (heap w)) (rendererByCompId w)
  ∧ map_Forall (λ k r, k < length (heap w) ∧ r < length (heap w)) (rendererCache w).

(** The cache still holds, as a key, a shadow renderer built for
    [element]. *)
Definition cache_retains (w : World) (element : Element) : Prop :=
  ∃ delegate renderer type,
    rendererCache w !! delegate = Some renderer
    ∧ heap w !! delegate = Some (ShadowDomRenderer element type).

(** Every renderer in the cache is a base animation renderer around its
    key. *)
Definition cache_wraps (w : World) : Prop :=
  map_Forall (λ delegate renderer,
                heap w !! renderer
                = Some (BaseAnimationRenderer EMPTY_NAMESPACE_ID delegate))
             (rendererCache w).

(** ** A concrete factory *)

(** A setting where [ngDevMode] is not defined and [flattenStyles] appends
    the styles to its target, and the two factories before their first call:
    the default renderer is the only object and nothing is cached. *)
Definition sample_env : Env :=
  {| defaultRenderer := 0;
     appId := "ng";
     ngDevMode := None;
     flattenStyles := λ _ styles target, (target ++ styles)%list;
     customRenderer := λ _ _ delegate, mret delegate |}.

Definition fresh_world : World :=
  {| heap := [DefaultDomRenderer2];
     rendererByCompId := ∅;
     hostsApplied := [];
     stylesAdded := [];
     hasLoggedNativeEncapsulationWarning := false;
     console := [];
     rendererCache := ∅ |}.

(** Three component types without animation data, one per branch of the
    [switch]. *)
Definition shadow_component : RendererType2 :=
  {| type_id := "c0"; encapsulation := ShadowDom; styles := []; data := Some ∅ |}.

Definition emulated_component : RendererType2 :=
  {| type_id := "c1"; encapsulation := Emulated; styles := []; data := Some ∅ |}.

Definition plain_component : RendererType2 :=
  {| type_id := "c2"; encapsulation := EncapsulationOther; styles := []; data := None |}.

(** * Properties *)

(** A property of every element of a literal list, element by element. *)
Ltac each_entry := repeat apply Forall_cons_2; try apply Forall_nil_2.

(** ** Reading the route literals *)

Section route_literals.
Context (p : string) (c : Component).

Lemma path_literal :
  path {[ "path" := VString p; "component" := VComponent c ]} = Some p.
Proof. unfold path. by rewrite lookup_insert_eq. Qed.

Lemma component_literal :
  component {[ "path" := VString p; "component" := VComponent c ]} = Some c.
Proof.
  unfold component.
  rewrite lookup_insert_ne by done. by rewrite lookup_singleton_eq.
Qed.

Lemma dom_literal :
  dom ({[ "path" := VString p; "component" := VComponent c ]} : Route)
  = ({[ "path"; "component" ]} : gset string).
Proof. by rewrite dom_insert_L, dom_singleton_L. Qed.


Lemma route_pair_literal :
  route_pair {[ "path" := VString p; "component" := VComponent c ]} = Some (p, c).
Proof. unfold route_pair. by rewrite path_literal, component_literal. Qed.
End route_literals.

(** ** Resolution, entry by entry *)

Lemma resolve_nil url : resolve [] url = None.
Proof. reflexivity. Qed.

Lemma resolve_cons r config url :
  resolve (r :: config) url
  = if decide (path r = Some url) then component r else resolve config url.
Proof.
  unfold resolve, matches. cbn [find].
  destruct (decide (path r = Some url)) as [Heq | Hne].
  - by rewrite bool_decide_eq_true_2.
  - by rewrite bool_decide_eq_false_2.
Qed.

(** Resolution on the table of this program, as a decision on the request. *)
Lemma resolve_appRoutes url :
  resolve appRoutes url
  = if decide (url = "page-one") then Some PageOneComponent
    else if decide (url = "page-two") then Some PageTwoComponent
    else if decide (url = "page-three") then Some PageThreeComponent
    else None.
Proof.
  unfold appRoutes.
  rewrite !resolve_cons, resolve_nil, !path_literal, !component_literal.
  repeat case_decide; simplify_eq; done.
Qed.

Lemma router_config_appRoutes : router_config = appRoutes.
Proof. reflexivity. Qed.

Lemma defined_paths_appRoutes :
  defined_paths appRoutes = ["page-one"; "page-two"; "page-three"].
Proof.
  unfold defined_paths, appRoutes. cbn [omap list_omap].
  by rewrite !path_literal.
Qed.

Lemma routed_components_appRoutes :
  routed_components appRoutes
  = [PageOneComponent; PageTwoComponent; PageThreeComponent].
Proof.
  unfold routed_components, appRoutes. cbn [omap list_omap].
  by rewrite !component_literal.
Qed.

(** ** Navigation keeps the configuration and the outlet in shape *)

Section navigation.
Implicit Types (st : RouterState) (url : string) (urls : list string).

Lemma deactivate_config st : config (deactivate st) = config st.
Proof. unfold deactivate. by destruct (activated st). Qed.

Lemma navigate_config url st : config (navigate url st) = config st.
Proof.
  unfold navigate. destruct (resolve (config st) url); [|done].
  cbn. apply deactivate_config.
Qed.

Lemma navigations_snoc urls url st :
  navigations (urls ++ [url]) st = navigate url (navigations urls st).
Proof. unfold navigations. by rewrite foldl_app. Qed.

Lemma navigations_config urls st : config (navigations urls st) = config st.
Proof.
  revert st. induction urls as [|url urls IH]; intros st; [done|].
  cbn. change (config (navigations urls (navigate url st)) = config st).
  by rewrite IH, navigate_config.
Qed.

Lemma boot_outlet_shows : outlet_shows boot.
Proof. reflexivity. Qed.

Lemma deactivate_clears st :
  outlet_shows st → activated (deactivate st) = None ∧ live (deactivate st) = [].
Proof.
  unfold outlet_shows, deactivate. intros Hlive.
  destruct (activated st) as [c|] eqn:Hact; cbn in *; [|done].
  split; [done|]. rewrite Hlive. cbn [option_list].
  rewrite filter_cons_False by (intros Hne; by apply Hne).
  apply filter_nil.
Qed.

Lemma navigate_resolved url c st :
  outlet_shows st → resolve (config st) url = Some c →
  activated (navigate url st) = Some c ∧ live (navigate url st) = [c].
Proof.
  intros Hshows Hres. unfold navigate. rewrite Hres.
  destruct (deactivate_clears st Hshows) as [_ Hlive].
  unfold activateWith; cbn. by rewrite Hlive.
Qed.

Lemma navigate_outlet_shows url st :
  outlet_shows st → outlet_shows (navigate url st).
Proof.
  intros Hshows.
  destruct (resolve (config st) url) as [c|] eqn:Hres.
  - destruct (navigate_resolved url c st Hshows Hres) as [Hact Hlive].
    unfold outlet_shows. by rewrite Hact, Hlive.
  - unfold navigate. by rewrite Hres.
Qed.

Lemma navigations_outlet_shows urls st :
  outlet_shows st → outlet_shows (navigations urls st).
Proof.
  revert st. induction urls as [|url urls IH]; intros st Hshows; [done|].
  apply (IH (navigate url st)). by apply navigate_outlet_shows.
Qed.

(** A state the program can be in: the booted router after any requests. *)
Lemma reachable_config urls : config (navigations urls boot) = appRoutes.
Proof. by rewrite navigations_config. Qed.

Lemma reachable_outlet_shows urls : outlet_shows (navigations urls boot).
Proof. apply navigations_outlet_shows, boot_outlet_shows. Qed.

Lemma iter_navigate_config url n st :
  config (Nat.iter n (navigate url) st) = config st.
Proof. induction n as [|n IH]; [done|]. cbn. by rewrite navigate_config. Qed.

Lemma iter_navigate_outlet_shows url n st :
  outlet_shows st → outlet_shows (Nat.iter n (navigate url) st).
Proof.
  intros Hshows. induction n as [|n IH]; [done|].
  cbn. by apply navigate_outlet_shows.
Qed.
End navigation.

(** ** The route table *)

(** C1. Each of the three defined paths resolves to its page component and
    to no other: resolution returns that component, the table has exactly
    one entry under the path and it names that component, and after
    navigating there, whatever was requested before, that component is the
    activated one and its root is the only page root in the live tree. *)
Theorem defined_paths_resolve_to_their_page (history : list string) :
  Forall (λ e : string * Component,
            resolve appRoutes e.1 = Some e.2
            ∧ component <$> filter (λ r, path r = Some e.1) appRoutes = [Some e.2]
            ∧ activated (navigate e.1 (navigations history boot)) = Some e.2
            ∧ live (navigate e.1 (navigations history boot)) = [e.2])
         [("page-one", PageOneComponent);
          ("page-two", PageTwoComponent);
          ("page-three", PageThreeComponent)].
Proof.
  assert (Hnav : ∀ url c, resolve appRoutes url = Some c →
            activated (navigate url (navigations history boot)) = Some c
            ∧ live (navigate url (navigations history boot)) = [c]).
  { intros url c Hres. apply navigate_resolved.
    - apply reachable_outlet_shows.
    - by rewrite reachable_config. }
  each_entry; cbn [fst snd].
  all: split; [by rewrite resolve_appRoutes|].
  all: split; [|by apply Hnav; rewrite resolve_appRoutes].
  all: unfold appRoutes.
  all: repeat (first [ rewrite filter_cons_True by (by rewrite path_literal)
                     | rewrite filter_cons_False by (by rewrite path_literal) ]).
  all: rewrite filter_nil; cbn [fmap list_fmap]; by rewrite component_literal.
Qed.

(** C3. Resolution is idempotent over repeated navigation: after any
    sequence of requests the configuration is still the route table, and
    for every defined path, navigating to it once or [S n] times in a row
    activates the component the table resolves it to. *)
Theorem resolution_is_idempotent (history : list string) (n : nat) :
  config (navigations history boot) = appRoutes
  ∧ Forall (λ url,
              ∃ c, resolve appRoutes url = Some c
                   ∧ resolve (config (navigations history boot)) url = Some c
                   ∧ activated (navigate url (navigations history boot)) = Some c
                   ∧ activated (Nat.iter (S n) (navigate url) (navigations history boot))
                     = Some c)
           (defined_paths appRoutes).
Proof.
  split; [apply reachable_config|].
  assert (Hnav : ∀ url c, resolve appRoutes url = Some c →
            resolve (config (navigations history boot)) url = Some c
            ∧ activated (navigate url (navigations history boot)) = Some c
            ∧ activated (Nat.iter (S n) (navigate url) (navigations history boot))
              = Some c).
  { intros url c Hres. split; [by rewrite reachable_config|]. split.
    - apply navigate_resolved; [apply reachable_outlet_shows|].
      by rewrite reachable_config.
    - rewrite Nat.iter_succ. apply navigate_resolved.
      + apply iter_navigate_outlet_shows, reachable_outlet_shows.
      + by rewrite iter_navigate_config, reachable_config. }
  rewrite defined_paths_appRoutes.
  each_entry.
  - exists PageOneComponent. split; [by rewrite resolve_appRoutes|].
    apply Hnav. by rewrite resolve_appRoutes.
  - exists PageTwoComponent. split; [by rewrite resolve_appRoutes|].
    apply Hnav. by rewrite resolve_appRoutes.
  - exists PageThreeComponent. split; [by rewrite resolve_appRoutes|].
    apply Hnav. by rewrite resolve_appRoutes.
Qed.

(** C4. After the requests page-three, page-one, page-three, page-two,
    page-three, made from whatever state earlier requests left, Page Three
    is the activated component, its root is the only page root attached to
    the live tree, and the roots of the other two pages are not attached. *)
Theorem scenario_ends_on_page_three (history : list string) :
  let st := navigations
              ["page-three"; "page-one"; "page-three"; "page-two"; "page-three"]
              (navigations history boot) in
  (activated st = Some PageThreeComponent
   ∧ live st = [PageThreeComponent]
   ∧ (PageOneComponent ∉ live st)
   ∧ (PageTwoComponent ∉ live st)).
Proof.
  intros st.
  assert (Hlast : activated st = Some PageThreeComponent
                  ∧ live st = [PageThreeComponent]).
  { subst st.
    change ["page-three"; "page-one"; "page-three"; "page-two"; "page-three"]
      with ((["page-three"; "page-one"; "page-three"; "page-two"] ++ ["page-three"])%list).
    rewrite navigations_snoc. apply navigate_resolved.
    - apply navigations_outlet_shows, reachable_outlet_shows.
    - rewrite navigations_config, reachable_config.
      by rewrite resolve_appRoutes. }
  destruct Hlast as [Hact Hlive]. rewrite Hlive.
  repeat split; [done| |]; rewrite list_elem_of_singleton; discriminate.
Qed.

(** C5. The route table consists of three entries, each an object with
    exactly the properties [path] (a string) and [component] (a component
    reference); it is the one table handed to the router when the
    application module is loaded, and it stays the router's configuration,
    entry for entry, after any sequence of requests from any state. *)
Theorem route_table_is_immutable (ops : list string) (st : RouterState) :
  Forall (λ r, dom r = ({[ "path"; "component" ]} : gset string)
               ∧ is_Some (route_pair r)) appRoutes
  ∧ omap route_pair appRoutes
    = [("page-one", PageOneComponent);
       ("page-two", PageTwoComponent);
       ("page-three", PageThreeComponent)]
  ∧ forRoot_tables 6 AppModule = [appRoutes]
  ∧ config boot = appRoutes
  ∧ config (navigations ops boot) = appRoutes
  ∧ config (navigations ops st) = config st.
Proof.
  split.
  { unfold appRoutes. each_entry.
    all: rewrite dom_literal, route_pair_literal; eauto. }
  split.
  { unfold appRoutes. cbn [omap list_omap]. by rewrite !route_pair_literal. }
  split; [reflexivity|]. split; [reflexivity|].
  split; [apply reachable_config|apply navigations_config].
Qed.



(** C9. The paths of the table are pairwise distinct, one per entry, so a
    path is never mapped to two components. *)
Theorem paths_are_pairwise_distinct :
  NoDup (defined_paths appRoutes)
  ∧ length (defined_paths appRoutes) = length appRoutes
  ∧ ∀ url c1 c2,
      (url, c1) ∈ omap route_pair appRoutes →
      (url, c2) ∈ omap route_pair appRoutes → c1 = c2.
Proof.
  split.
  { rewrite defined_paths_appRoutes.
    repeat (apply NoDup_cons; split;
            [rewrite ?not_elem_of_cons; repeat split;
             try discriminate; apply not_elem_of_nil|]).
    apply NoDup_nil_2. }
  split; [by rewrite defined_paths_appRoutes|].
  intros url c1 c2.
  unfold appRoutes. cbn [omap list_omap]. rewrite !route_pair_literal.
  rewrite !elem_of_cons, !elem_of_nil. intros H1 H2.
  destruct H1 as [H1|[H1|[H1|[]]]], H2 as [H2|[H2|[H2|[]]]]; congruence.
Qed.

Lemma paths_are_pairwise_distinct_witness :
  ("page-two", PageTwoComponent) ∈ omap route_pair appRoutes
  ∧ ∀ c, ("page-two", c) ∈ omap route_pair appRoutes → c = PageTwoComponent.
Proof.
  assert (Hin : ("page-two", PageTwoComponent) ∈ omap route_pair appRoutes).
  { unfold appRoutes. cbn [omap list_omap]. rewrite !route_pair_literal.
    rewrite !elem_of_cons. tauto. }
  split; [exact Hin|].
  intros c Hc.
  exact (proj2 (proj2 paths_are_pairwise_distinct) "page-two" c PageTwoComponent Hc Hin).
Defined.

(** ** The application module *)

(** C7, as stated, fails: [BrowserModule] is a framework module, it is
    written in the [imports] of the application module, and it is none of
    routing, forms and animations; so the framework modules active in the
    application module are not exactly those three. *)
Lemma browser_module_is_active_too :
  is_framework BrowserModule = true
  ∧ BrowserModule ∈ direct_imports AppModule
  ∧ (BrowserModule ∉ named_framework_modules)
  ∧ ¬ (∀ m, m ∈ active_framework_modules AppModule ↔ m ∈ named_framework_modules).
Proof.
  assert (Hin : BrowserModule ∈ active_framework_modules AppModule).
  { change (active_framework_modules AppModule)
      with [BrowserModule; BrowserAnimationsModule; FormsModule; RouterModule].
    apply list_elem_of_here. }
  assert (Hout : BrowserModule ∉ named_framework_modules).
  { unfold named_framework_modules. rewrite !not_elem_of_cons.
    repeat split; try discriminate. apply not_elem_of_nil. }
  split; [reflexivity|]. split; [apply list_elem_of_here|].
  split; [exact Hout|].
  intros Hall. apply Hout, Hall, Hin.
Qed.

(** C7, amended. The application module imports four modules: the browser
    platform, animations and forms modules of the framework, and the routing
    module of the repository, which imports the router configured with the
    route table and re-exports it. The framework modules active in the
    application module are those four; routing, forms and animations are
    among them, and [AppComponent] is what the module bootstraps. *)
Theorem app_module_framework_modules :
  direct_imports AppModule
  = [BrowserModule; BrowserAnimationsModule; FormsModule; AppRoutingModule]
  ∧ imports AppRoutingModule_meta = [ImportForRoot appRoutes]
  ∧ exports AppRoutingModule_meta = [RouterModule]
  ∧ active_framework_modules AppModule
    = [BrowserModule; BrowserAnimationsModule; FormsModule; RouterModule]
  ∧ Forall (λ m, m ∈ active_framework_modules AppModule) named_framework_modules
  ∧ bootstrap AppModule_meta = [AppComponent].
Proof.
  repeat split; try reflexivity.
  change (active_framework_modules AppModule)
    with [BrowserModule; BrowserAnimationsModule; FormsModule; RouterModule].
  unfold named_framework_modules. each_entry; rewrite !elem_of_cons; tauto.
Qed.

(** C10. Every component a route entry refers to is in the declarations of
    the application module; [AppComponent] is the only bootstrap component,
    no entry refers to it and no request resolves to it. *)
Theorem routed_components_are_declared (url : string) :
  Forall (λ c, c ∈ declarations AppModule_meta) (routed_components appRoutes)
  ∧ bootstrap AppModule_meta = [AppComponent]
  ∧ (AppComponent ∉ routed_components appRoutes)
  ∧ resolve appRoutes url ≠ Some AppComponent.
Proof.
  rewrite routed_components_appRoutes.
  split.
  { unfold AppModule_meta; cbn [declarations].
    each_entry; rewrite !elem_of_cons; tauto. }
  split; [reflexivity|]. split.
  { rewrite !not_elem_of_cons. repeat split; try discriminate.
    apply not_elem_of_nil. }
  rewrite resolve_appRoutes. repeat case_decide; discriminate.
Qed.

(** ** The pages *)

Lemma handler_for_none ev : handler_for ev [] = None.
Proof. reflexivity. Qed.

Lemma dispatch_without_handlers cls ev st :
  handlers cls = [] → dispatch cls ev st = st.
Proof. intros Hnone. unfold dispatch. by rewrite Hnone, handler_for_none. Qed.

(** C2. Rendering Page One mounts exactly one shadow-encapsulated child
    element, rendering Page Two mounts exactly one, and rendering Page Three
    mounts none. *)
Theorem pages_mount_shadow_children :
  shadow_children PageOneComponent
  = [{| variant := ShadowChild; host := PageOneComponent |}]
  ∧ shadow_children PageTwoComponent
    = [{| variant := ShadowChild; host := PageTwoComponent |}]
  ∧ shadow_children PageThreeComponent = []
  ∧ length (shadow_children PageOneComponent) = 1
  ∧ length (shadow_children PageTwoComponent) = 1
  ∧ length (shadow_children PageThreeComponent) = 0.
Proof. repeat split; reflexivity. Qed.

(** C8. Each of the three routed page components declares no input and no
    output, no event changes the state of an instance, and its template
    includes exactly one child element, which is all that rendering it
    mounts. *)
Theorem pages_are_stateless (ev : string) (st : PageState) :
  Forall (λ c, ∃ cls, page_class c = Some cls
                      ∧ inputs cls = []
                      ∧ outputs cls = []
                      ∧ dispatch cls ev st = st
                      ∧ length (template cls) = 1
                      ∧ length (mount c) = 1)
         (routed_components appRoutes).
Proof.
  rewrite routed_components_appRoutes.
  each_entry; eexists; (split; [reflexivity|]); repeat split;
    by apply dispatch_without_handlers.
Qed.

(** ** The renderer factories *)

Ltac unfold_st :=
  unfold mbind, mret, St_bind, St_ret, reads, modify, new, rendererByCompId_set,
    applyToHost, addStyles, warn_once, rendererCache_set in *;
  cbn in *.

Ltac delegate_cases element type :=
  unfold delegate_createRenderer;
  destruct element as [element|], type as [type|];
  [destruct (encapsulation type) eqn:?| | |];
  unfold_st; repeat case_match; cbn in *.

Section delegate.
Context (env : Env).
Implicit Types (w : World) (element : option Element) (type : option RendererType2)
  (el : Element) (ty : RendererType2).

Lemma delegate_cache element type w :
  rendererCache (delegate_createRenderer env element type w).2 = rendererCache w.
Proof. delegate_cases element type; reflexivity. Qed.

Lemma delegate_heap element type w :
  ∃ extra, heap (delegate_createRenderer env element type w).2 = (heap w ++ extra)%list.
Proof.
  delegate_cases element type; eauto using app_nil_r.
  all: try (exists []; by rewrite app_nil_r).
Qed.

Lemma unknown_component w (id : string) :
  negb (bool_decide (is_Some (rendererByCompId w !! id))) = true →
  rendererByCompId w !! id = None.
Proof.
  rewrite negb_true_iff, bool_decide_eq_false, <- eq_None_not_Some. done.
Qed.

Lemma delegate_rendererByCompId element type w :
  rendererByCompId w ⊆ rendererByCompId (delegate_createRenderer env element type w).2.
Proof.
  delegate_cases element type; try reflexivity.
  - by apply insert_subseteq.
  - by apply insert_subseteq, unknown_component.
Qed.

(** What a call may do to the console: nothing, or the one warning, and
    then the flag is raised. *)
Lemma delegate_console element type w :
  let w' := (delegate_createRenderer env element type w).2 in
  (hasLoggedNativeEncapsulationWarning w' = hasLoggedNativeEncapsulationWarning w
   ∧ console w' = console w)
  ∨ (dev_mode env = true
     ∧ (∃ t, type = Some t ∧ encapsulation t = EncapsulationOne)
     ∧ hasLoggedNativeEncapsulationWarning w = false
     ∧ hasLoggedNativeEncapsulationWarning w' = true
     ∧ console w' = (console w ++ [native_warning])%list).
Proof.
  delegate_cases element type; auto.
  all: match goal with H : _ && _ = true |- _ =>
         rewrite !andb_true_iff, negb_true_iff, bool_decide_eq_true in H;
         destruct H as [[Hdev Hlog] Hone] end.
  - right. eauto 10.
  - discriminate.
Qed.

Lemma delegate_valid element type w :
  refs_in_heap env w →
  refs_in_heap env (delegate_createRenderer env element type w).2
  ∧ (delegate_createRenderer env element type w).1
    < length (heap (delegate_createRenderer env element type w).2).
Proof.
  intros (Hdef & Hids & Hcache).
  assert (Hmore : ∀ o, length (heap w) < length (heap w ++ [o])%list).
  { intros o. rewrite length_app. cbn. lia. }
  assert (Hids' : ∀ o, map_Forall (λ _ r, r < length (heap w ++ [o])%list)
                         (rendererByCompId w)).
  { intros o. eapply map_Forall_impl; [exact Hids|].
    intros k r Hr. cbn in Hr. specialize (Hmore o). lia. }
  assert (Hcache' : ∀ o, map_Forall (λ k r, k < length (heap w ++ [o])%list
                                            ∧ r < length (heap w ++ [o])%list)
                           (rendererCache w)).
  { intros o. eapply map_Forall_impl; [exact Hcache|].
    intros k r Hr. cbn in Hr. specialize (Hmore o). lia. }
  unfold refs_in_heap.
  delegate_cases element type.
  all: repeat match goal with
         | H : rendererByCompId _ !! _ = Some _ |- _ => apply Hids in H; cbn in H
         end.
  all: split; [split; [|split]|].
  all: first [ exact Hids | exact Hcache | apply Hids' | apply Hcache'
             | apply map_Forall_insert_2;
               [rewrite ?length_app; cbn; lia | first [exact Hids | apply Hids']]
             | rewrite ?length_app; cbn; lia ].
Qed.

Lemma delegate_emulated_stored el ty w :
  encapsulation ty = Emulated →
  let call := delegate_createRenderer env (Some el) (Some ty) w in
  rendererByCompId call.2 !! type_id ty = Some call.1.
Proof.
  intros Henc. unfold delegate_createRenderer. rewrite Henc.
  unfold_st. case_match; cbn; [done|]. apply lookup_insert_eq.
Qed.

Lemma delegate_emulated_hit el ty r w :
  encapsulation ty = Emulated →
  rendererByCompId w !! type_id ty = Some r →
  (delegate_createRenderer env (Some el) (Some ty) w).1 = r
  ∧ heap (delegate_createRenderer env (Some el) (Some ty) w).2 = heap w
  ∧ rendererByCompId (delegate_createRenderer env (Some el) (Some ty) w).2
    = rendererByCompId w.
Proof.
  intros Henc Hr. unfold delegate_createRenderer. rewrite Henc.
  unfold_st. by rewrite Hr.
Qed.

Lemma delegate_shadow el ty w :
  encapsulation ty = ShadowDom ∨ encapsulation ty = EncapsulationOne →
  let call := delegate_createRenderer env (Some el) (Some ty) w in
  call.1 = length (heap w)
  ∧ heap call.2 = (heap w ++ [ShadowDomRenderer el ty])%list
  ∧ rendererByCompId call.2 = rendererByCompId w.
Proof.
  intros [Henc|Henc]; unfold delegate_createRenderer; rewrite Henc;
    unfold_st; by case_match.
Qed.

Lemma delegate_other_stored el ty w :
  encapsulation ty = EncapsulationOther →
  is_Some (rendererByCompId
             (delegate_createRenderer env (Some el) (Some ty) w).2
           !! type_id ty).
Proof.
  intros Henc. unfold delegate_createRenderer. rewrite Henc.
  unfold_st. case_match eqn:Hknown; cbn.
  - rewrite lookup_insert_eq. eauto.
  - by rewrite negb_false_iff, bool_decide_eq_true in Hknown.
Qed.

Lemma delegate_other_known el ty w :
  encapsulation ty = EncapsulationOther →
  is_Some (rendererByCompId w !! type_id ty) →
  delegate_createRenderer env (Some el) (Some ty) w = (defaultRenderer env, w).
Proof.
  intros Henc Hknown. unfold delegate_createRenderer. rewrite Henc.
  unfold_st. by rewrite bool_decide_eq_true_2.
Qed.

Lemma delegate_default element type w :
  (element = None ∨ type = None
   ∨ ∃ t, type = Some t ∧ encapsulation t = EncapsulationOther) →
  (delegate_createRenderer env element type w).1 = defaultRenderer env
  ∧ heap (delegate_createRenderer env element type w).2 = heap w.
Proof.
  intros Hcase. delegate_cases element type; try done.
  all: destruct Hcase as [?|[?|(t & [= <-] & ?)]]; congruence.
Qed.

(** *** Sequences of delegate calls *)

Lemma delegate_calls_cons c calls w :
  delegate_calls env (c :: calls) w
  = delegate_calls env calls (delegate_createRenderer env c.1 c.2 w).2.
Proof. reflexivity. Qed.

Lemma delegate_calls_rendererByCompId calls w :
  rendererByCompId w ⊆ rendererByCompId (delegate_calls env calls w).
Proof.
  revert w. induction calls as [|c calls IH]; intros w; [done|].
  rewrite delegate_calls_cons. etrans; [|apply IH].
  apply delegate_rendererByCompId.
Qed.

Lemma delegate_calls_heap calls w :
  ∃ extra, heap (delegate_calls env calls w) = (heap w ++ extra)%list.
Proof.
  revert w. induction calls as [|c calls IH]; intros w.
  - exists []. by rewrite app_nil_r.
  - rewrite delegate_calls_cons.
    destruct (IH (delegate_createRenderer env c.1 c.2 w).2) as [extra2 ->].
    destruct (delegate_heap c.1 c.2 w) as [extra1 ->].
    exists (extra1 ++ extra2)%list. by rewrite app_assoc.
Qed.

Lemma delegate_calls_logged calls w :
  hasLoggedNativeEncapsulationWarning w = true →
  hasLoggedNativeEncapsulationWarning (delegate_calls env calls w) = true
  ∧ console (delegate_calls env calls w) = console w.
Proof.
  revert w. induction calls as [|c calls IH]; intros w Hlogged; [done|].
  rewrite delegate_calls_cons.
  destruct (delegate_console c.1 c.2 w) as [[Hflag Hcon]|(_ & _ & Hno & _)];
    [|congruence].
  rewrite <- Hcon. apply IH. congruence.
Qed.
End delegate.

Section factory.
Context (env : Env).
Implicit Types (w : World) (element : option Element) (type : option RendererType2)
  (el : Element) (ty : RendererType2).

Lemma createRenderer_base element type w :
  base_renderer_used element type = true →
  createRenderer env element type w
  = let call := delegate_createRenderer env element type w in
    match rendererCache call.2 !! call.1 with
    | Some renderer => (renderer, call.2)
    | None =>
        (length (heap call.2),
         (rendererCache_set call.1 (length (heap call.2))
            (new (BaseAnimationRenderer EMPTY_NAMESPACE_ID call.1) call.2).2).2)
    end.
Proof.
  intros Hbase. unfold createRenderer. rewrite Hbase. cbv zeta.
  unfold mbind at 1, St_bind at 1.
  generalize (delegate_createRenderer env element type w). intros [d wd].
  cbn. unfold mbind, St_bind, reads. cbn.
  by destruct (rendererCache wd !! d).
Qed.

(** On the base path a call either finds the delegate in the cache, or
    builds a base renderer and stores it under the delegate. *)
Lemma factory_step element type w :
  base_renderer_used element type = true →
  let call := delegate_createRenderer env element type w in
  let res := createRenderer env element type w in
  (rendererCache w !! call.1 = Some res.1 ∧ res.2 = call.2)
  ∨ (rendererCache w !! call.1 = None
     ∧ res.1 = length (heap call.2)
     ∧ heap res.2 = (heap call.2 ++ [BaseAnimationRenderer EMPTY_NAMESPACE_ID call.1])%list
     ∧ rendererCache res.2 = <[call.1 := res.1]> (rendererCache w)
     ∧ rendererByCompId res.2 = rendererByCompId call.2).
Proof.
  intros Hbase call res. subst res. rewrite (createRenderer_base _ _ _ Hbase).
  cbv zeta. fold call.
  pose proof (delegate_cache env element type w) as Hcache. fold call in Hcache.
  rewrite <- Hcache.
  destruct (rendererCache call.2 !! call.1) as [r|] eqn:Hget; [by left|by right].
Qed.

Lemma factory_heap element type w :
  base_renderer_used element type = true →
  ∃ extra, heap (createRenderer env element type w).2 = (heap w ++ extra)%list.
Proof.
  intros Hbase. destruct (delegate_heap env element type w) as [extra Hextra].
  destruct (factory_step element type w Hbase) as [[_ ->]|(_ & _ & -> & _)].
  - eauto.
  - rewrite Hextra, <- app_assoc. eauto.
Qed.

Lemma factory_rendererByCompId element type w :
  base_renderer_used element type = true →
  rendererByCompId w ⊆ rendererByCompId (createRenderer env element type w).2.
Proof.
  intros Hbase.
  destruct (factory_step element type w Hbase) as [[_ ->]|(_ & _ & _ & _ & ->)];
    apply delegate_rendererByCompId.
Qed.

Lemma factory_cache element type w :
  base_renderer_used element type = true →
  rendererCache w ⊆ rendererCache (createRenderer env element type w).2.
Proof.
  intros Hbase.
  destruct (factory_step element type w Hbase) as [[_ ->]|(Hnone & _ & _ & -> & _)].
  - by rewrite delegate_cache.
  - by apply insert_subseteq.
Qed.

Lemma factory_valid element type w :
  base_renderer_used element type = true →
  refs_in_heap env w →
  refs_in_heap env (createRenderer env element type w).2
  ∧ (createRenderer env element type w).1
    < length (heap (createRenderer env element type w).2).
Proof.
  intros Hbase Hrefs.
  destruct (delegate_valid env element type w Hrefs) as [(Hdef & Hids & Hcache) Hlt].
  rewrite delegate_cache in Hcache.
  destruct (factory_step element type w Hbase)
    as [[Hhit ->]|(Hnone & Hres & Hheap & Hcache' & Hids')].
  - split; [split; [done|split; [done|by rewrite delegate_cache]]|].
    by apply Hcache in Hhit as [_ ?].
  - assert (Hlen : length (heap (createRenderer env element type w).2)
                   = S (length (heap (delegate_createRenderer env element type w).2))).
    { rewrite Hheap, length_app. cbn. lia. }
    unfold refs_in_heap. rewrite Hcache', Hids', Hlen, Hres.
    split; [split; [lia|split]|lia].
    + eapply map_Forall_impl; [exact Hids|]. intros k r Hr. cbn in *. lia.
    + apply map_Forall_insert_2; [lia|].
      eapply map_Forall_impl; [exact Hcache|]. intros k r Hr. cbn in *. lia.
Qed.

(** A shadow call on the base path never finds its delegate in the cache. *)
Lemma factory_shadow el ty w :
  refs_in_heap env w →
  base_renderer_used (Some el) (Some ty) = true →
  encapsulation ty = ShadowDom ∨ encapsulation ty = EncapsulationOne →
  let res := createRenderer env (Some el) (Some ty) w in
  rendererCache w !! length (heap w) = None
  ∧ res.1 = S (length (heap w))
  ∧ heap res.2
    = (heap w ++ [ShadowDomRenderer el ty;
                  BaseAnimationRenderer EMPTY_NAMESPACE_ID (length (heap w))])%list
  ∧ rendererCache res.2 = <[length (heap w) := S (length (heap w))]> (rendererCache w).
Proof.
  intros (_ & _ & Hcache) Hbase Henc res.
  destruct (delegate_shadow env el ty w Henc) as (Hd & Hheap & _).
  assert (Hfresh : rendererCache w !! length (heap w) = None).
  { destruct (rendererCache w !! length (heap w)) as [r|] eqn:Hget; [|done].
    apply Hcache in Hget as [? _]. lia. }
  split; [done|]. subst res.
  destruct (factory_step (Some el) (Some ty) w Hbase)
    as [[Hhit _]|(_ & Hres & Hheap' & Hcache' & _)].
  - rewrite Hd in Hhit. congruence.
  - rewrite Hd in *. rewrite Hheap in *.
    rewrite Hcache', Hheap', Hres, length_app, <- app_assoc. cbn.
    replace (length (heap w) + 1) with (S (length (heap w))) by lia. done.
Qed.

(** *** Sequences of calls on the base path *)

Lemma factory_calls_cons c calls w :
  factory_calls env (c :: calls) w
  = factory_calls env calls (createRenderer env c.1 c.2 w).2.
Proof. reflexivity. Qed.

Lemma factory_calls_heap calls w :
  Forall on_base_path calls →
  ∃ extra, heap (factory_calls env calls w) = (heap w ++ extra)%list.
Proof.
  intros Hbase. revert w.
  induction Hbase as [|c calls Hc _ IH]; intros w.
  - exists []. by rewrite app_nil_r.
  - rewrite factory_calls_cons.
    destruct (IH (createRenderer env c.1 c.2 w).2) as [extra2 ->].
    destruct (factory_heap c.1 c.2 w Hc) as [extra1 ->].
    exists (extra1 ++ extra2)%list. by rewrite app_assoc.
Qed.

Lemma factory_calls_rendererByCompId calls w :
  Forall on_base_path calls →
  rendererByCompId w ⊆ rendererByCompId (factory_calls env calls w).
Proof.
  intros Hbase. revert w.
  induction Hbase as [|c calls Hc _ IH]; intros w; [done|].
  rewrite factory_calls_cons. etrans; [|apply IH].
  by apply factory_rendererByCompId.
Qed.

Lemma factory_calls_cache calls w :
  Forall on_base_path calls →
  rendererCache w ⊆ rendererCache (factory_calls env calls w).
Proof.
  intros Hbase. revert w.
  induction Hbase as [|c calls Hc _ IH]; intros w; [done|].
  rewrite factory_calls_cons. etrans; [|apply IH].
  by apply factory_cache.
Qed.

Lemma factory_calls_valid calls w :
  Forall on_base_path calls →
  refs_in_heap env w → refs_in_heap env (factory_calls env calls w).
Proof.
  intros Hbase. revert w.
  induction Hbase as [|c calls Hc _ IH]; intros w Hrefs; [done|].
  rewrite factory_calls_cons. apply IH.
  by apply factory_valid.
Qed.

(** What the cache retains, it retains after later calls. *)
Lemma cache_retains_later calls w el :
  Forall on_base_path calls →
  cache_retains w el → cache_retains (factory_calls env calls w) el.
Proof.
  intros Hbase (delegate & renderer & ty & Hget & Hobj).
  exists delegate, renderer, ty. split.
  - eapply lookup_weaken; [exact Hget|]. by apply factory_calls_cache.
  - destruct (factory_calls_heap calls w Hbase) as [extra ->].
    by apply lookup_app_l_Some.
Qed.
End factory.

(** ** What the two methods guarantee *)

Section renderer_properties.
Context (env : Env).
Implicit Types (w : World) (el : Element) (ty : RendererType2) (calls : list Call).

Lemma delegate_calls_quiet calls w :
  ngDevMode env = Some false
  ∨ Forall (λ c, ∀ t, c.2 = Some t → encapsulation t ≠ EncapsulationOne) calls →
  console (delegate_calls env calls w) = console w.
Proof.
  revert w. induction calls as [|c calls IH]; intros w Hquiet; [done|].
  rewrite delegate_calls_cons.
  destruct (delegate_console env c.1 c.2 w)
    as [[_ Hcon]|(Hdev & (t & Ht & Hone) & _)].
  - rewrite <- Hcon. apply IH.
    destruct Hquiet as [?|Hall]; [by left|right]. by inversion Hall.
  - destruct Hquiet as [Hoff|Hall].
    + unfold dev_mode in Hdev. rewrite Hoff in Hdev. discriminate.
    + inversion Hall as [|? ? Hc _]; subst. by destruct (Hc t Ht).
Qed.

(** X1. The delegate of an emulated component is built once: whatever calls
    come in between, a later call for an emulated component with the same id
    returns the renderer the first call returned, and allocates nothing. *)
Theorem emulated_delegate_is_reused ty ty' el el' calls w :
  encapsulation ty = Emulated →
  encapsulation ty' = Emulated →
  type_id ty' = type_id ty →
  let first := delegate_createRenderer env (Some el) (Some ty) w in
  let w2 := delegate_calls env calls first.2 in
  let later := delegate_createRenderer env (Some el') (Some ty') w2 in
  later.1 = first.1 ∧ heap later.2 = heap w2.
Proof.
  intros Henc Henc' Hid first w2 later.
  assert (Hstored : rendererByCompId w2 !! type_id ty' = Some first.1).
  { rewrite Hid. eapply lookup_weaken; [by apply delegate_emulated_stored|].
    apply delegate_calls_rendererByCompId. }
  destruct (delegate_emulated_hit env el' ty' first.1 w2 Henc' Hstored)
    as (Hr & Hheap & _).
  done.
Qed.

(** X2. The delegate of a shadow component is never reused: every call for
    one returns an object that was not in the heap before the call, so it
    differs from the renderer of any earlier shadow call. *)
Theorem shadow_delegate_is_always_new ty ty' el el' calls w :
  encapsulation ty = ShadowDom ∨ encapsulation ty = EncapsulationOne →
  encapsulation ty' = ShadowDom ∨ encapsulation ty' = EncapsulationOne →
  let first := delegate_createRenderer env (Some el) (Some ty) w in
  let w2 := delegate_calls env calls first.2 in
  let later := delegate_createRenderer env (Some el') (Some ty') w2 in
  heap w2 !! later.1 = None
  ∧ heap later.2 !! later.1 = Some (ShadowDomRenderer el' ty')
  ∧ first.1 < later.1.
Proof.
  intros Henc Henc' first w2 later.
  destruct (delegate_shadow env el ty w Henc) as (Hr1 & Hheap1 & _).
  destruct (delegate_shadow env el' ty' w2 Henc') as (Hr2 & Hheap2 & _).
  fold first in Hr1, Hheap1. fold later in Hr2, Hheap2.
  destruct (delegate_calls_heap env calls first.2) as [extra Hextra].
  fold w2 in Hextra.
  rewrite Hr2, Hheap2. split; [by apply lookup_ge_None_2|].
  split.
  - rewrite lookup_app_r by done. by rewrite Nat.sub_diag.
  - rewrite Hr1, Hextra, Hheap1, !length_app. cbn. lia.
Qed.

(** X3. Over any sequence of calls the warning about the value [1] is
    written to the console at most once. *)
Theorem native_warning_at_most_once calls w :
  console (delegate_calls env calls w) = console w
  ∨ console (delegate_calls env calls w) = (console w ++ [native_warning])%list.
Proof.
  revert w. induction calls as [|c calls IH]; intros w; [by left|].
  rewrite delegate_calls_cons.
  destruct (delegate_console env c.1 c.2 w)
    as [[_ Hcon]|(_ & _ & _ & Hflag & Hcon)].
  - rewrite <- Hcon. apply IH.
  - right. rewrite <- Hcon.
    by apply delegate_calls_logged.
Qed.

(** X4. Nothing is written to the console when the warning was logged
    before, when [ngDevMode] is defined and false, or when no call has the
    encapsulation value [1]. *)
Theorem native_warning_conditions calls w :
  hasLoggedNativeEncapsulationWarning w = true
  ∨ ngDevMode env = Some false
  ∨ Forall (λ c, ∀ t, c.2 = Some t → encapsulation t ≠ EncapsulationOne) calls →
  console (delegate_calls env calls w) = console w.
Proof.
  intros [Hlogged|Hquiet].
  - by apply delegate_calls_logged.
  - by apply delegate_calls_quiet.
Qed.

(** X5. A component that is neither emulated nor shadow has its styles
    added once: after a first call for it, whatever calls come in between, a
    later call for a component with the same id changes nothing and returns
    the default renderer. *)
Theorem default_styles_added_once ty ty' el el' calls w :
  encapsulation ty = EncapsulationOther →
  encapsulation ty' = EncapsulationOther →
  type_id ty' = type_id ty →
  let first := delegate_createRenderer env (Some el) (Some ty) w in
  let w2 := delegate_calls env calls first.2 in
  delegate_createRenderer env (Some el') (Some ty') w2 = (defaultRenderer env, w2).
Proof.
  intros Henc Henc' Hid first w2.
  apply delegate_other_known; [done|]. rewrite Hid.
  destruct (delegate_other_stored env el ty w Henc) as [r Hr].
  exists r. eapply lookup_weaken; [exact Hr|].
  apply delegate_calls_rendererByCompId.
Qed.

Lemma factory_stored element type w :
  base_renderer_used element type = true →
  rendererCache (createRenderer env element type w).2
    !! (delegate_createRenderer env element type w).1
  = Some (createRenderer env element type w).1.
Proof.
  intros Hbase.
  destruct (factory_step env element type w Hbase)
    as [[Hhit ->]|(_ & _ & _ & -> & _)].
  - by rewrite delegate_cache.
  - apply lookup_insert_eq.
Qed.

Lemma factory_hit element type r w :
  base_renderer_used element type = true →
  rendererCache w !! (delegate_createRenderer env element type w).1 = Some r →
  createRenderer env element type w
  = (r, (delegate_createRenderer env element type w).2).
Proof.
  intros Hbase Hget.
  destruct (factory_step env element type w Hbase) as [[Hhit Hw]|(Hnone & _)];
    [|congruence].
  rewrite Hget in Hhit. injection Hhit as Hr.
  destruct (createRenderer env element type w) as [r' w']. cbn in *. congruence.
Qed.

(** X6. Caching works for components that are not shadow: on the base
    path, after a first call for an emulated component, or for one that is
    neither emulated nor shadow, a later call for a component with the same
    id and encapsulation returns the same renderer and leaves the heap and
    the cache as they were, whatever base-path calls come in between. *)
Theorem cached_base_renderer_is_reused ty ty' el el' calls w :
  (encapsulation ty = Emulated ∨ encapsulation ty = EncapsulationOther) →
  encapsulation ty' = encapsulation ty →
  type_id ty' = type_id ty →
  base_renderer_used (Some el) (Some ty) = true →
  base_renderer_used (Some el') (Some ty') = true →
  Forall on_base_path calls →
  let first := createRenderer env (Some el) (Some ty) w in
  let w2 := factory_calls env calls first.2 in
  let later := createRenderer env (Some el') (Some ty') w2 in
  later.1 = first.1
  ∧ heap later.2 = heap w2
  ∧ rendererCache later.2 = rendererCache w2.
Proof.
  intros Henc Henc' Hid Hbase Hbase' Hcalls first w2 later.
  set (d1 := (delegate_createRenderer env (Some el) (Some ty) w).1).
  set (d2 := (delegate_createRenderer env (Some el') (Some ty') w2).1).
  assert (Hcached : rendererCache w2 !! d1 = Some first.1).
  { eapply lookup_weaken; [by apply factory_stored|].
    by apply factory_calls_cache. }
  assert (Hsame : d2 = d1
                  ∧ heap (delegate_createRenderer env (Some el') (Some ty') w2).2
                    = heap w2).
  { destruct Henc as [Hemu|Hother].
    - assert (Hfirst : rendererByCompId first.2 !! type_id ty = Some d1).
      { eapply lookup_weaken; [by apply delegate_emulated_stored|].
        subst first.
        destruct (factory_step env (Some el) (Some ty) w Hbase)
          as [[_ Hw]|(_ & _ & _ & _ & Hw)]; by rewrite Hw. }
      assert (Hstored : rendererByCompId w2 !! type_id ty' = Some d1).
      { rewrite Hid. eapply lookup_weaken; [exact Hfirst|].
        by apply factory_calls_rendererByCompId. }
      rewrite Hemu in Henc'.
      destruct (delegate_emulated_hit env el' ty' d1 w2 Henc' Hstored)
        as (? & ? & _). done.
    - rewrite Hother in Henc'.
      destruct (delegate_default env (Some el') (Some ty') w2) as [Hd2 Hh2];
        [eauto|].
      destruct (delegate_default env (Some el) (Some ty) w) as [Hd1 _];
        [eauto|].
      subst d1 d2. by rewrite Hd1, Hd2. }
  destruct Hsame as [Hd Hheap]. subst later.
  rewrite (factory_hit (Some el') (Some ty') first.1 w2 Hbase')
    by (fold d2; by rewrite Hd).
  cbn [fst snd]. by rewrite delegate_cache.
Qed.

(** X7. Caching never works for shadow components: starting from a world
    whose references are in the heap, every base-path call for a shadow
    component adds one entry to the cache and two objects to the heap, so
    after [n] such calls the cache has [n] more entries. *)
Theorem shadow_calls_fill_cache calls w :
  refs_in_heap env w →
  Forall (λ c, on_base_path c ∧ shadow_call c) calls →
  size (rendererCache (factory_calls env calls w))
  = size (rendererCache w) + length calls
  ∧ length (heap (factory_calls env calls w))
    = length (heap w) + 2 * length calls.
Proof.
  intros Hrefs Hcalls. revert w Hrefs.
  induction Hcalls as [|c calls [Hbase Hshadow] _ IH]; intros w Hrefs.
  - cbn. lia.
  - rewrite factory_calls_cons.
    destruct Hshadow as (el & ty & -> & Henc). cbn [fst snd] in *.
    destruct (factory_shadow env el ty w Hrefs Hbase Henc)
      as (Hfresh & _ & Hheap & Hcache).
    destruct (IH (createRenderer env (Some el) (Some ty) w).2) as [Hsize Hlen].
    { by apply factory_valid. }
    rewrite Hsize, Hlen, Hcache, Hheap, length_app.
    rewrite map_size_insert_None by done. cbn. lia.
Qed.

(** X8. The cache keeps the host elements of shadow components: once a
    base-path call was made for a shadow component on host element [el], the
    cache holds a key that is a shadow renderer built for [el], after any
    later base-path calls. *)
Theorem cache_retains_shadow_hosts ty el calls w :
  refs_in_heap env w →
  base_renderer_used (Some el) (Some ty) = true →
  encapsulation ty = ShadowDom ∨ encapsulation ty = EncapsulationOne →
  Forall on_base_path calls →
  cache_retains
    (factory_calls env calls (createRenderer env (Some el) (Some ty) w).2) el.
Proof.
  intros Hrefs Hbase Henc Hcalls.
  apply cache_retains_later; [done|].
  destruct (factory_shadow env el ty w Hrefs Hbase Henc)
    as (_ & _ & Hheap & Hcache).
  exists (length (heap w)), (S (length (heap w))), ty.
  rewrite Hcache, Hheap. split; [apply lookup_insert_eq|].
  rewrite lookup_app_r by done. by rewrite Nat.sub_diag.
Qed.


Lemma cache_wraps_step element type w :
  base_renderer_used element type = true →
  cache_wraps w → cache_wraps (createRenderer env element type w).2.
Proof.
  intros Hbase Hwraps.
  destruct (delegate_heap env element type w) as [extra Hextra].
  destruct (factory_step env element type w Hbase)
    as [[_ ->]|(Hnone & Hres & Hheap & Hcache & _)];
    unfold cache_wraps in *.
  - rewrite delegate_cache, Hextra.
    eapply map_Forall_impl; [exact Hwraps|]. intros k r Hr. cbn in *.
    by apply lookup_app_l_Some.
  - rewrite Hcache, Hheap, Hres. apply map_Forall_insert_2.
    + rewrite lookup_app_r by done. by rewrite Nat.sub_diag.
    + eapply map_Forall_impl; [exact Hwraps|]. intros k r Hr. cbn in *.
      rewrite Hextra, <- app_assoc. by apply lookup_app_l_Some.
Qed.

Lemma cache_wraps_calls calls w :
  Forall on_base_path calls →
  cache_wraps w → cache_wraps (factory_calls env calls w).
Proof.
  intros Hbase. revert w.
  induction Hbase as [|c calls Hc _ IH]; intros w Hwraps; [done|].
  rewrite factory_calls_cons. apply IH. by apply cache_wraps_step.
Qed.

(** X10. On the base path the renderer returned is a base animation
    renderer, with the empty namespace, around the renderer the delegate
    returned for the same arguments; this holds after any base-path calls,
    from a world whose cached renderers wrap their keys. *)
Theorem base_renderer_wraps_delegate element type calls w :
  cache_wraps w →
  Forall on_base_path calls →
  base_renderer_used element type = true →
  let w2 := factory_calls env calls w in
  let res := createRenderer env element type w2 in
  heap res.2 !! res.1
  = Some (BaseAnimationRenderer EMPTY_NAMESPACE_ID
            (delegate_createRenderer env element type w2).1).
Proof.
  intros Hwraps Hcalls Hbase w2 res.
  assert (Hw2 : cache_wraps res.2).
  { by apply cache_wraps_step, cache_wraps_calls. }
  exact (Hw2 _ _ (factory_stored element type w2 Hbase)).
Qed.
End renderer_properties.

(** ** The guarantees on a concrete factory *)

Lemma fresh_world_refs_in_heap : refs_in_heap sample_env fresh_world.
Proof.
  split; [cbn; lia|]. split; apply map_Forall_empty.
Qed.

Lemma fresh_world_cache_wraps : cache_wraps fresh_world.
Proof. apply map_Forall_empty. Qed.

Lemma emulated_delegate_is_reused_witness :
  (delegate_createRenderer sample_env (Some 8) (Some emulated_component)
     (delegate_calls sample_env [(Some 9, Some shadow_component)]
        (delegate_createRenderer sample_env (Some 7) (Some emulated_component)
           fresh_world).2)).1
  = (delegate_createRenderer sample_env (Some 7) (Some emulated_component)
       fresh_world).1.
Proof.
  exact (proj1 (emulated_delegate_is_reused sample_env
                  emulated_component emulated_component 7 8
                  [(Some 9, Some shadow_component)] fresh_world
                  eq_refl eq_refl eq_refl)).
Defined.

Lemma shadow_delegate_is_always_new_witness :
  (delegate_createRenderer sample_env (Some 7) (Some shadow_component) fresh_world).1
  < (delegate_createRenderer sample_env (Some 7) (Some shadow_component)
       (delegate_calls sample_env []
          (delegate_createRenderer sample_env (Some 7) (Some shadow_component)
             fresh_world).2)).1.
Proof.
  exact (proj2 (proj2 (shadow_delegate_is_always_new sample_env
                         shadow_component shadow_component 7 7 [] fresh_world
                         (or_introl eq_refl) (or_introl eq_refl)))).
Defined.

Lemma native_warning_conditions_witness :
  console (delegate_calls sample_env
             [(Some 7, Some shadow_component); (Some 8, Some emulated_component)]
             fresh_world)
  = [].
Proof.
  apply (native_warning_conditions sample_env
           [(Some 7, Some shadow_component); (Some 8, Some emulated_component)]
           fresh_world).
  right; right. repeat apply Forall_cons_2; try apply Forall_nil_2.
  all: intros t [= <-]; discriminate.
Defined.

Lemma default_styles_added_once_witness :
  let w2 := delegate_calls sample_env [(Some 9, Some shadow_component)]
              (delegate_createRenderer sample_env (Some 7) (Some plain_component)
                 fresh_world).2 in
  delegate_createRenderer sample_env (Some 8) (Some plain_component) w2 = (0, w2).
Proof.
  exact (default_styles_added_once sample_env plain_component plain_component 7 8
           [(Some 9, Some shadow_component)] fresh_world eq_refl eq_refl eq_refl).
Defined.

Lemma cached_base_renderer_is_reused_witness :
  (createRenderer sample_env (Some 8) (Some emulated_component)
     (factory_calls sample_env [(Some 9, Some shadow_component)]
        (createRenderer sample_env (Some 7) (Some emulated_component)
           fresh_world).2)).1
  = (createRenderer sample_env (Some 7) (Some emulated_component) fresh_world).1.
Proof.
  refine (proj1 (cached_base_renderer_is_reused sample_env
                   emulated_component emulated_component 7 8
                   [(Some 9, Some shadow_component)] fresh_world
                   (or_introl eq_refl) eq_refl eq_refl eq_refl eq_refl _)).
  repeat apply Forall_cons_2; try apply Forall_nil_2. reflexivity.
Defined.

Lemma shadow_calls_fill_cache_witness :
  size (rendererCache
          (factory_calls sample_env
             [(Some 7, Some shadow_component); (Some 7, Some shadow_component);
              (Some 7, Some shadow_component)] fresh_world))
  = 3.
Proof.
  refine (proj1 (shadow_calls_fill_cache sample_env
                   [(Some 7, Some shadow_component); (Some 7, Some shadow_component);
                    (Some 7, Some shadow_component)] fresh_world
                   fresh_world_refs_in_heap _)).
  repeat apply Forall_cons_2; try apply Forall_nil_2.
  all: split; [reflexivity|].
  all: exists 7, shadow_component; split; [reflexivity|left; reflexivity].
Defined.

Lemma cache_retains_shadow_hosts_witness :
  cache_retains
    (factory_calls sample_env [(Some 8, Some plain_component)]
       (createRenderer sample_env (Some 7) (Some shadow_component) fresh_world).2)
    7.
Proof.
  apply (cache_retains_shadow_hosts sample_env shadow_component 7
           [(Some 8, Some plain_component)] fresh_world).
  - exact fresh_world_refs_in_heap.
  - reflexivity.
  - left; reflexivity.
  - repeat apply Forall_cons_2; try apply Forall_nil_2. reflexivity.
Defined.


Lemma base_renderer_wraps_delegate_witness :
  let res := createRenderer sample_env (Some 7) (Some shadow_component)
               (factory_calls sample_env [(Some 8, Some emulated_component)]
                  fresh_world) in
  heap res.2 !! res.1
  = Some (BaseAnimationRenderer EMPTY_NAMESPACE_ID
            (delegate_createRenderer sample_env (Some 7) (Some shadow_component)
               (factory_calls sample_env [(Some 8, Some emulated_component)]
                  fresh_world)).1).
Proof.
  apply (base_renderer_wraps_delegate sample_env (Some 7) (Some shadow_component)
           [(Some 8, Some emulated_component)] fresh_world).
  - exact fresh_world_cache_wraps.
  - repeat apply Forall_cons_2; try apply Forall_nil_2. reflexivity.
  - reflexivity.
Defined.
